(** * doc/Working_with_Bokeh.ipynb: the notebook as a program

    The repository's source is one Jupyter notebook.  Its code cells are
    embedded as abstract syntax of the Python subset they are written in,
    and run by a small evaluator that threads the kernel's namespace, the
    log of file accesses and the list of inline renderings through the
    cells, top to bottom.  Objects built by library calls are kept as the
    call that built them. *)

From Stdlib Require Import ZArith Ascii.
From stdpp Require Import base option list strings gmap.

Local Open Scope string_scope.
Local Open Scope list_scope.
Local Open Scope Z_scope.

Set Warnings "-register-all".

(** ** Syntax *)

Module Py.

(** Expressions.  [EIfExp] and [EListComp] are part of the language although
    the notebook never writes them. *)
Inductive expr : Type :=
| EName (x : string)
| EStr (s : string)
| EInt (n : Z)
| EAttr (e : expr) (a : string)
| ECall (f : expr) (args : list expr) (kwargs : list (string * expr))
| ESubscript (e : expr) (k : expr)
| EList (es : list expr)
| ETuple (es : list expr)
| EDict (items : list (expr * expr))
| EDictComp (k v : expr) (targets : list string) (iter : expr)
| EListComp (v : expr) (targets : list string) (iter : expr)
| EMul (l r : expr)
| EIfExp (c th el : expr).

(** What an assignment, an augmented assignment or a [del] acts on. *)
Inductive target : Type :=
| TName (x : string)
| TSubscript (e k : expr)
| TAttr (e : expr) (a : string).

Inductive stmt : Type :=
| SImport (module : string) (asname : option string)
| SFromImport (module name : string) (asname : option string)
| SAssign (t : target) (e : expr)
| SAugAssign (t : target) (e : expr)
| SDel (t : target)
| SExpr (e : expr)
| SIf (c : expr) (th el : list stmt)
| SWhile (c : expr) (body : list stmt)
| SFor (targets : list string) (iter : expr) (body : list stmt).

(** A notebook cell: markdown (its text plays no part), or code with its
    leading [%%] magic lines and its statements. *)
Inductive cell : Type :=
| Markdown
| Code (magics : list string) (body : list stmt).

Definition body (c : cell) : list stmt :=
  match c with Markdown => [] | Code _ b => b end.

Definition is_code (c : cell) : bool :=
  match c with Markdown => false | Code _ _ => true end.

End Py.
Import Py.

(** ** The notebook *)

Definition kw (k : string) (e : expr) : string * expr := (k, e).
Definition strs (l : list string) : expr := EList (map EStr l).
Definition PlateCarree : expr := ECall (EAttr (EName "ccrs") "PlateCarree") [] [].

Definition cell_imports : cell :=
  Code []
    [ SImport "xarray" (Some "xr");
      SImport "numpy" (Some "np");
      SImport "pandas" (Some "pd");
      SImport "holoviews" (Some "hv");
      SImport "geoviews" (Some "gv");
      SImport "geoviews.feature" (Some "gf");
      SImport "cartopy" None;
      SFromImport "cartopy" "crs" (Some "ccrs");
      SFromImport "bokeh.tile_providers" "STAMEN_TONER" None;
      SFromImport "bokeh.models" "WMTSTileSource" None;
      SExpr (ECall (EAttr (EName "hv") "notebook_extension") [EStr "bokeh"] []) ].

Definition WMTSTileSource (url : string) : expr :=
  ECall (EName "WMTSTileSource") [] [kw "url" (EStr url)].

Definition cell_tiles : cell :=
  Code []
    [ SAssign (TName "tiles")
        (EDict
           [ (EStr "OpenMap",
              WMTSTileSource "http://c.tile.openstreetmap.org/{Z}/{X}/{Y}.png");
             (EStr "ESRI",
              WMTSTileSource "https://server.arcgisonline.com/ArcGIS/rest/services/World_Imagery/MapServer/tile/{Z}/{Y}/{X}.jpg");
             (EStr "Wikipedia",
              WMTSTileSource "https://maps.wikimedia.org/osm-intl/{Z}/{X}/{Y}@2x.png");
             (EStr "Stamen Toner", EName "STAMEN_TONER") ]) ].

Definition cell_layout : cell :=
  Code ["%%opts WMTS [width=450 height=250 xaxis=None yaxis=None]"]
    [ SExpr
        (ECall
           (EAttr
              (ECall (EAttr (EName "hv") "NdLayout")
                 [ EDictComp (EName "name")
                     (ECall (EAttr (EName "gv") "WMTS") [EName "wmts"]
                        [ kw "extents" (ETuple [EInt 0; EInt (-90); EInt 360; EInt 90]);
                          kw "crs" PlateCarree ])
                     ["name"; "wmts"]
                     (ECall (EAttr (EName "tiles") "items") [] []) ]
                 [ kw "kdims" (strs ["Source"]) ])
              "cols")
           [EInt 2] []) ].

Definition cell_cities : cell :=
  Code []
    [ SAssign (TName "cities")
        (ECall (EAttr (EName "pd") "read_csv") [EStr "./assets/cities.csv"]
           [kw "encoding" (EStr "ISO-8859-1")]);
      SAssign (TName "population")
        (ECall (EAttr (EName "gv") "Dataset") [EName "cities"]
           [kw "kdims" (strs ["City"; "Country"; "Year"])]);
      SExpr (ECall (EAttr (EName "cities") "head") [] []) ].

Definition cell_points : cell :=
  Code ["%%opts Overlay [width=600 height=300 xaxis=None yaxis=None] ";
        "%%opts Points (size=0.005 cmap='viridis') [tools=['hover'] color_index=2]"]
    [ SExpr
        (EMul
           (ECall (EAttr (EName "gv") "WMTS")
              [ESubscript (EName "tiles") (EStr "Wikipedia")] [])
           (ECall (EAttr (EName "population") "to")
              [EAttr (EName "gv") "Points"]
              [ kw "kdims" (strs ["Longitude"; "Latitude"]);
                kw "vdims" (strs ["Population"; "City"; "Country"]);
                kw "crs" PlateCarree ])) ].

Definition cell_shapes : cell :=
  Code []
    [ SAssign (TName "shapefile") (EStr "./assets/boundaries/boundaries.shp");
      SAssign (TName "shapes")
        (ECall
           (EAttr (EAttr (EAttr (EName "cartopy") "io") "shapereader") "Reader")
           [EName "shapefile"] []);
      SAssign (TName "referendum")
        (ECall (EAttr (EName "pd") "read_csv") [EStr "./assets/referendum.csv"] []);
      SAssign (TName "referendum")
        (ECall (EAttr (EName "hv") "Dataset") [EName "referendum"] []) ].

Definition cell_choropleth : cell :=
  Code ["%%opts Shape (cmap='viridis') [xaxis=None yaxis=None tools=['hover'] width=400 height=500]"]
    [ SExpr
        (ECall (EAttr (EAttr (EName "gv") "Shape") "from_records")
           [ ECall (EAttr (EName "shapes") "records") [] [];
             EName "referendum" ]
           [ kw "on" (EStr "code");
             kw "value" (EStr "leaveVoteshare");
             kw "index" (EStr "name");
             kw "crs" PlateCarree;
             kw "group" (EStr "EU Referendum") ]) ].

Definition cell_image : cell :=
  Code ["%%opts Overlay [width=600 height=400] Image (cmap='viridis') Feature (line_color='black')"]
    [ SAssign (TName "dataset")
        (ECall (EAttr (EName "xr") "open_dataset")
           [EStr "./sample-data/pre-industrial.nc"] []);
      SAssign (TName "air_temperature")
        (ECall (EAttr (EName "gv") "Dataset") [EName "dataset"]
           [ kw "kdims" (strs ["longitude"; "latitude"]);
             kw "group" (EStr "Pre-industrial air temperature");
             kw "vdims" (strs ["air_temperature"]);
             kw "crs" PlateCarree ]);
      SExpr
        (EMul
           (ECall (EAttr (EAttr (EName "air_temperature") "to") "image") [] [])
           (EAttr (EName "gf") "coastline")) ].

(** The cells in the order of the file; markdown cells keep their place. *)
Definition notebook : list cell :=
  [ cell_imports; Markdown; Markdown; Markdown;
    cell_tiles; Markdown;
    cell_layout; Markdown; Markdown;
    cell_cities; Markdown;
    cell_points; Markdown; Markdown;
    cell_shapes; Markdown;
    cell_choropleth; Markdown; Markdown;
    cell_image; Markdown ].

Definition code_cells : list cell := filter (fun c => is_code c = true) notebook.

(** ** Values, errors and the kernel state *)

(** A value of the kernel.  Library objects are symbolic: a module, a member
    of a module or object, or the call that built the object. *)
Inductive value : Type :=
| VStr (s : string)
| VInt (n : Z)
| VModule (name : string)
| VMember (owner : value) (attr : string)
| VList (vs : list value)
| VTuple (vs : list value)
| VDict (items : list (string * value))
| VObject (callee : value) (args : list value) (kwargs : list (string * value)).

Inductive error : Type :=
| NameError (x : string)
| KeyError (k : string)
| TypeError
| Unsupported.

Inductive result (A : Type) : Type :=
| Ok (a : A)
| Raise (e : error).
Arguments Ok {A} a.
Arguments Raise {A} e.

Definition is_ok {A} (r : result A) : bool :=
  match r with Ok _ => true | Raise _ => false end.

(** An access to the file system: the named file opened for reading, or for
    writing. *)
Inductive access : Type :=
| FRead (path : string)
| FWrite (path : string).

#[global] Instance access_eq_dec : EqDecision access.
Proof. solve_decision. Defined.

Definition is_write (a : access) : bool :=
  match a with FWrite _ => true | FRead _ => false end.

Definition read_path (a : access) : option string :=
  match a with FRead p => Some p | FWrite _ => None end.

(** Computations that may raise and that log the file accesses they make. *)
Definition comp (A : Type) : Type := result (A * list access).

Definition raise {A} (e : error) : comp A := Raise e.
Definition tell (a : access) : comp unit := Ok (tt, [a]).

#[global] Instance comp_ret : MRet comp := fun A a => Ok (a, []).
#[global] Instance comp_bind : MBind comp := fun A B f m =>
  match m with
  | Raise e => Raise e
  | Ok (a, l) =>
      match f a with
      | Raise e => Raise e
      | Ok (b, l') => Ok (b, l ++ l')
      end
  end.

(** [d[k] = v] on a dictionary.  The entries are kept in the order they were
    first set, the order in which a literal writes them. *)
Fixpoint dict_set (k : string) (v : value) (d : list (string * value))
  : list (string * value) :=
  match d with
  | [] => [(k, v)]
  | (k', v') :: d' =>
      if String.eqb k k' then (k, v) :: d' else (k', v') :: dict_set k v d'
  end.

Fixpoint dict_get (k : string) (d : list (string * value)) : option value :=
  match d with
  | [] => None
  | (k', v') :: d' => if String.eqb k k' then Some v' else dict_get k d'
  end.

Definition dict_keys (d : list (string * value)) : list string := map fst d.

Definition dict_items (d : list (string * value)) : list value :=
  map (fun kv => VTuple [VStr (fst kv); snd kv]) d.

(** ** The libraries, as far as the notebook touches them *)

(** The dotted name of a module or of a member reached from a module. *)
Fixpoint qualname (v : value) : option string :=
  match v with
  | VModule m => Some m
  | VMember o a => (fun q => q +:+ "." +:+ a) <$> qualname o
  | _ => None
  end.

(** The calls that open a file and load it: pandas' CSV loader, cartopy's
    shapefile reader and xarray's dataset loader.  Each takes the path as its
    first argument. *)
Definition loaders : list string :=
  ["pandas.read_csv"; "cartopy.io.shapereader.Reader"; "xarray.open_dataset"].

(** The methods by which the objects of these libraries write a file
    (DataFrame.to_csv and to_pickle, Dataset.to_netcdf, a renderer's save);
    each takes the path as its first argument. *)
Definition writers : list string := ["to_csv"; "to_pickle"; "to_netcdf"; "save"].

Definition is_loader (f : value) : bool :=
  match qualname f with
  | Some q => bool_decide (q ∈ loaders)
  | None => false
  end.

Definition is_writer (f : value) : bool :=
  match f with
  | VMember (VObject _ _ _) a => bool_decide (a ∈ writers)
  | _ => false
  end.

(** The class bokeh.models.WMTSTileSource. *)
Definition tile_source_class : value :=
  VMember (VModule "bokeh.models") "WMTSTileSource".

(** [call f args kwargs]: calling [f].  A loader logs the read of its path
    and a writer the write; [d.items()] on a dictionary lists its pairs; any
    other call of a library name or method yields the object it builds. *)
Definition call (f : value) (args : list value) (kwargs : list (string * value))
  : comp value :=
  match f with
  | VMember (VDict d) a =>
      if String.eqb a "items" then
        match args, kwargs with
        | [], [] => mret (VList (dict_items d))
        | _, _ => raise TypeError
        end
      else raise Unsupported
  | VMember _ _ | VModule _ =>
      if is_loader f then
        match args with
        | VStr p :: _ => _ ← tell (FRead p); mret (VObject f args kwargs)
        | _ => raise TypeError
        end
      else if is_writer f then
        match args with
        | VStr p :: _ => _ ← tell (FWrite p); mret (VObject f args kwargs)
        | _ => raise TypeError
        end
      else mret (VObject f args kwargs)
  | _ => raise TypeError
  end.

(** [o[k]]: a dictionary is looked up and a missing key raises; on a library
    object the subscript is the object's own. *)
Definition subscript (o k : value) : comp value :=
  match o, k with
  | VDict d, VStr s =>
      match dict_get s d with
      | Some v => mret v
      | None => raise (KeyError s)
      end
  | VObject _ _ _, _ => mret (VObject (VMember o "__getitem__") [k] [])
  | _, _ => raise TypeError
  end.

(** [l * r]: the product of two integers, or the overlay of two library
    objects. *)
Definition multiply (l r : value) : comp value :=
  match l, r with
  | VInt a, VInt b => mret (VInt (a * b))
  | VObject _ _ _, _ => mret (VObject (VMember l "__mul__") [r] [])
  | _, _ => raise TypeError
  end.

(** The elements an iteration over [v] yields. *)
Definition elements_of (v : value) : comp (list value) :=
  match v with
  | VList vs | VTuple vs => mret vs
  | VDict d => mret (map VStr (dict_keys d))
  | _ => raise TypeError
  end.

(** Binding the targets of a [for] clause to one element: a single target
    takes the element, several unpack it. *)
Fixpoint bind_all (xs : list string) (vs : list value) (ρ : gmap string value)
  : option (gmap string value) :=
  match xs, vs with
  | [], [] => Some ρ
  | x :: xs', v :: vs' => bind_all xs' vs' (<[x := v]> ρ)
  | _, _ => None
  end.

Definition bind_targets (xs : list string) (v : value) (ρ : gmap string value)
  : comp (gmap string value) :=
  match xs with
  | [x] => mret (<[x := v]> ρ)
  | _ =>
      match v with
      | VTuple vs | VList vs =>
          match bind_all xs vs ρ with
          | Some ρ' => mret ρ'
          | None => raise TypeError
          end
      | _ => raise TypeError
      end
  end.

Definition as_key (v : value) : comp string :=
  match v with
  | VStr s => mret s
  | _ => raise Unsupported
  end.

(** The name [import m] binds: the top-level package of [m]. *)
Fixpoint top_package (m : string) : string :=
  match m with
  | EmptyString => EmptyString
  | String c m' =>
      if Ascii.eqb c "."%char then EmptyString else String c (top_package m')
  end.

Section Kernel.

(** The URL template of the tile source bokeh exports as STAMEN_TONER. *)
Variable stamen_url : string.

(** Modelled from the spec: the constant STAMEN_TONER of bokeh.tile_providers,
    which is not part of the notebook: like every tile source of the
    collection, a URL template string wrapped in a tile-source object.  Any
    other member of a module is known by its name. *)
Definition library_member (m n : string) : value :=
  if String.eqb m "bokeh.tile_providers" && String.eqb n "STAMEN_TONER"
  then VObject tile_source_class [] [("url", VStr stamen_url)]
  else VMember (VModule m) n.

End Kernel.

(** ** Evaluation of expressions *)

Fixpoint eval (ρ : gmap string value) (e : expr) {struct e} : comp value :=
  match e with
  | EName x =>
      match ρ !! x with
      | Some v => mret v
      | None => raise (NameError x)
      end
  | EStr s => mret (VStr s)
  | EInt n => mret (VInt n)
  | EAttr o a => v ← eval ρ o; mret (VMember v a)
  | ECall f args kwargs =>
      vf ← eval ρ f;
      vs ← (fix go (es : list expr) : comp (list value) :=
              match es with
              | [] => mret []
              | a :: es' => v ← eval ρ a; vs ← go es'; mret (v :: vs)
              end) args;
      ks ← (fix go (es : list (string * expr)) : comp (list (string * value)) :=
              match es with
              | [] => mret []
              | (k, a) :: es' => v ← eval ρ a; vs ← go es'; mret ((k, v) :: vs)
              end) kwargs;
      call vf vs ks
  | ESubscript o k => vo ← eval ρ o; vk ← eval ρ k; subscript vo vk
  | EList es =>
      vs ← (fix go (es : list expr) : comp (list value) :=
              match es with
              | [] => mret []
              | a :: es' => v ← eval ρ a; vs ← go es'; mret (v :: vs)
              end) es;
      mret (VList vs)
  | ETuple es =>
      vs ← (fix go (es : list expr) : comp (list value) :=
              match es with
              | [] => mret []
              | a :: es' => v ← eval ρ a; vs ← go es'; mret (v :: vs)
              end) es;
      mret (VTuple vs)
  | EDict items =>
      d ← (fix go (es : list (expr * expr)) (d : list (string * value))
             : comp (list (string * value)) :=
             match es with
             | [] => mret d
             | (k, a) :: es' =>
                 vk ← eval ρ k; s ← as_key vk; v ← eval ρ a;
                 go es' (dict_set s v d)
             end) items [];
      mret (VDict d)
  | EDictComp k v xs iter =>
      vi ← eval ρ iter;
      els ← elements_of vi;
      d ← (fix go (els : list value) (d : list (string * value))
             : comp (list (string * value)) :=
             match els with
             | [] => mret d
             | el :: els' =>
                 ρ' ← bind_targets xs el ρ;
                 vk ← eval ρ' k; s ← as_key vk; vv ← eval ρ' v;
                 go els' (dict_set s vv d)
             end) els [];
      mret (VDict d)
  | EListComp v xs iter =>
      vi ← eval ρ iter;
      els ← elements_of vi;
      vs ← (fix go (els : list value) : comp (list value) :=
              match els with
              | [] => mret []
              | el :: els' =>
                  ρ' ← bind_targets xs el ρ;
                  vv ← eval ρ' v; vs ← go els'; mret (vv :: vs)
              end) els;
      mret (VList vs)
  | EMul l r => vl ← eval ρ l; vr ← eval ρ r; multiply vl vr
  | EIfExp _ _ _ => raise Unsupported
  end.

(** ** Statements, cells and the kernel *)

(** The kernel state between cells: the namespace, the file accesses made so
    far (oldest first) and the values rendered inline so far.  Nothing else
    outlives a cell. *)
Record kernel : Type := Kernel {
  names : gmap string value;
  files : list access;
  shown : list value
}.

Definition fresh : kernel := Kernel ∅ [] [].

Definition bind_name (x : string) (v : value) (κ : kernel) : kernel :=
  Kernel (<[x := v]> (names κ)) (files κ) (shown κ).

Definition logged (l : list access) (κ : kernel) : kernel :=
  Kernel (names κ) (files κ ++ l) (shown κ).

Definition render (v : value) (κ : kernel) : kernel :=
  Kernel (names κ) (files κ) (shown κ ++ [v]).

Section Run.

Variable stamen_url : string.

(** One statement: the new state and, for an expression statement, its value.
    The notebook is written with imports, bindings of plain names and
    expression statements; the kernel model stops at anything else. *)
Definition exec (s : stmt) (κ : kernel) : result (kernel * option value) :=
  match s with
  | SImport m (Some a) => Ok (bind_name a (VModule m) κ, None)
  | SImport m None =>
      Ok (bind_name (top_package m) (VModule (top_package m)) κ, None)
  | SFromImport m n a =>
      Ok (bind_name (default n a) (library_member stamen_url m n) κ, None)
  | SAssign (TName x) e =>
      match eval (names κ) e with
      | Ok (v, l) => Ok (bind_name x v (logged l κ), None)
      | Raise err => Raise err
      end
  | SExpr e =>
      match eval (names κ) e with
      | Ok (v, l) => Ok (logged l κ, Some v)
      | Raise err => Raise err
      end
  | _ => Raise Unsupported
  end.

(** The statements of a cell in order; [last] is the value of the statement
    run last, when it was an expression. *)
Fixpoint exec_body (b : list stmt) (κ : kernel) (last : option value)
  : result (kernel * option value) :=
  match b with
  | [] => Ok (κ, last)
  | s :: b' =>
      match exec s κ with
      | Ok (κ', v) => exec_body b' κ' v
      | Raise err => Raise err
      end
  end.

(** A code cell runs to its end and the front end renders the value of its
    closing expression; a markdown cell does nothing. *)
Definition run_cell (c : cell) (κ : kernel) : result kernel :=
  match c with
  | Markdown => Ok κ
  | Code _ b =>
      match exec_body b κ None with
      | Ok (κ', Some v) => Ok (render v κ')
      | Ok (κ', None) => Ok κ'
      | Raise err => Raise err
      end
  end.

(** The cells top to bottom, each from the state the previous one left. *)
Fixpoint run (cs : list cell) (κ : kernel) : result kernel :=
  match cs with
  | [] => Ok κ
  | c :: cs' =>
      match run_cell c κ with
      | Ok κ' => run cs' κ'
      | Raise err => Raise err
      end
  end.

End Run.

(** ** What the code of a cell reads, binds and contains *)

(** Every expression inside [e], [e] itself first. *)
Fixpoint subexprs (e : expr) : list expr :=
  e ::
  match e with
  | EName _ | EStr _ | EInt _ => []
  | EAttr o _ => subexprs o
  | ECall f args kwargs =>
      subexprs f ++ flat_map subexprs args
        ++ flat_map (fun ka => subexprs (snd ka)) kwargs
  | ESubscript o k => subexprs o ++ subexprs k
  | EList es | ETuple es => flat_map subexprs es
  | EDict items =>
      flat_map (fun ka => subexprs (fst ka) ++ subexprs (snd ka)) items
  | EDictComp k v _ iter => subexprs k ++ subexprs v ++ subexprs iter
  | EListComp v _ iter => subexprs v ++ subexprs iter
  | EMul l r => subexprs l ++ subexprs r
  | EIfExp c th el => subexprs c ++ subexprs th ++ subexprs el
  end.

(** The names [e] reads from the namespace.  The targets of a comprehension
    are its own: they are bound in its key and value, not read. *)
Fixpoint reads (e : expr) : list string :=
  match e with
  | EName x => [x]
  | EStr _ | EInt _ => []
  | EAttr o _ => reads o
  | ECall f args kwargs =>
      reads f ++ flat_map reads args ++ flat_map (fun ka => reads (snd ka)) kwargs
  | ESubscript o k => reads o ++ reads k
  | EList es | ETuple es => flat_map reads es
  | EDict items => flat_map (fun ka => reads (fst ka) ++ reads (snd ka)) items
  | EDictComp k v xs iter =>
      reads iter ++ filter (fun x => x ∉ xs) (reads k ++ reads v)
  | EListComp v xs iter => reads iter ++ filter (fun x => x ∉ xs) (reads v)
  | EMul l r => reads l ++ reads r
  | EIfExp c th el => reads c ++ reads th ++ reads el
  end.

Definition target_exprs (t : target) : list expr :=
  match t with
  | TName _ => []
  | TSubscript o k => [o; k]
  | TAttr o _ => [o]
  end.

Definition target_binds (t : target) : list string :=
  match t with TName x => [x] | _ => [] end.

(** The expressions a statement holds, those of nested blocks included. *)
Fixpoint stmt_exprs (s : stmt) : list expr :=
  match s with
  | SImport _ _ | SFromImport _ _ _ => []
  | SAssign t e | SAugAssign t e => target_exprs t ++ [e]
  | SDel t => target_exprs t
  | SExpr e => [e]
  | SIf c th el => c :: flat_map stmt_exprs th ++ flat_map stmt_exprs el
  | SWhile c b => c :: flat_map stmt_exprs b
  | SFor _ iter b => iter :: flat_map stmt_exprs b
  end.

(** The names a statement binds in the namespace. *)
Fixpoint stmt_binds (s : stmt) : list string :=
  match s with
  | SImport m (Some a) => [a]
  | SImport m None => [top_package m]
  | SFromImport _ n a => [default n a]
  | SAssign t _ => target_binds t
  | SAugAssign _ _ | SDel _ | SExpr _ => []
  | SIf _ th el => flat_map stmt_binds th ++ flat_map stmt_binds el
  | SWhile _ b => flat_map stmt_binds b
  | SFor xs _ b => xs ++ flat_map stmt_binds b
  end.

(** The names a statement reads. *)
Definition stmt_reads (s : stmt) : list string :=
  flat_map reads (stmt_exprs s)
    ++ match s with SAugAssign t _ => target_binds t | _ => [] end.

Definition cell_reads (c : cell) : list string := flat_map stmt_reads (body c).
Definition cell_binds (c : cell) : list string := flat_map stmt_binds (body c).

(** The names bound by the cells before the [i]-th. *)
Definition bound_before (i : nat) : list string :=
  flat_map cell_binds (take i notebook).

(** A statement that is run once, start to end, whenever it is reached. *)
Definition straight_line (s : stmt) : bool :=
  match s with
  | SIf _ _ _ | SWhile _ _ | SFor _ _ _ => false
  | _ => true
  end.

Definition is_comprehension (e : expr) : bool :=
  match e with EDictComp _ _ _ _ | EListComp _ _ _ => true | _ => false end.

Definition is_conditional (e : expr) : bool :=
  match e with EIfExp _ _ _ => true | _ => false end.

Definition cell_exprs (c : cell) : list expr :=
  flat_map subexprs (flat_map stmt_exprs (body c)).

(** The comprehensions (the [for] clauses inside expressions) of a cell. *)
Definition comprehensions (c : cell) : list expr :=
  filter (fun e => is_comprehension e = true) (cell_exprs c).

Definition conditionals (c : cell) : list expr :=
  filter (fun e => is_conditional e = true) (cell_exprs c).

(** A cell without a conditional or a loop of any kind: no [if], [while] or
    [for] statement, no conditional expression and no comprehension. *)
Definition no_control_flow (c : cell) : bool :=
  forallb straight_line (body c)
    && bool_decide (comprehensions c = [])
    && bool_decide (conditionals c = []).

(** A statement that changes an object where it is: a store into a subscript
    or an attribute, an augmented assignment, or the deletion of a part. *)
Fixpoint stores_in_place (s : stmt) : bool :=
  match s with
  | SAssign (TName _) _ | SDel (TName _) => false
  | SAssign _ _ | SDel _ | SAugAssign _ _ => true
  | SIf _ th el => existsb stores_in_place th || existsb stores_in_place el
  | SWhile _ b | SFor _ _ b => existsb stores_in_place b
  | SImport _ _ | SFromImport _ _ _ | SExpr _ => false
  end.

(** The string literals of a cell that name a local file. *)
Definition is_local_path (s : string) : bool := String.prefix "./" s.

Definition path_literals (c : cell) : list string :=
  omap (fun e => match e with
                 | EStr s => if is_local_path s then Some s else None
                 | _ => None
                 end) (cell_exprs c).

(** ** Reading the objects the notebook builds *)

Fixpoint kwarg {A} (k : string) (kwargs : list (string * A)) : option A :=
  match kwargs with
  | [] => None
  | (k', a) :: rest => if String.eqb k k' then Some a else kwarg k rest
  end.

Definition str_of (v : value) : option string :=
  match v with VStr s => Some s | _ => None end.

Definition strs_of (v : value) : list string :=
  match v with
  | VList vs | VTuple vs => omap str_of vs
  | _ => []
  end.

(** A tile-source object wrapping the URL template [url]: what
    [WMTSTileSource(url=...)] builds. *)
Definition tile_source (url : string) : value :=
  VObject tile_source_class [] [("url", VStr url)].

(** The dictionary the tiles cell writes, with [u] the template of the
    imported Stamen source. *)
Definition tiles_dict (u : string) : list (string * value) :=
  [ ("OpenMap", tile_source "http://c.tile.openstreetmap.org/{Z}/{X}/{Y}.png");
    ("ESRI", tile_source "https://server.arcgisonline.com/ArcGIS/rest/services/World_Imagery/MapServer/tile/{Z}/{Y}/{X}.jpg");
    ("Wikipedia", tile_source "https://maps.wikimedia.org/osm-intl/{Z}/{X}/{Y}@2x.png");
    ("Stamen Toner", tile_source u) ].

(** The URL templates written in a cell: the literals passed as [url=] to
    [WMTSTileSource]. *)
Definition url_literals (c : cell) : list string :=
  omap (fun e => match e with
                 | ECall (EName f) [] [(k, EStr s)] =>
                     if String.eqb f "WMTSTileSource" && String.eqb k "url"
                     then Some s else None
                 | _ => None
                 end) (cell_exprs c).

(** The number of places of [s] at which [pat] starts. *)
Fixpoint count_sub (pat s : string) : nat :=
  match s with
  | EmptyString => 0
  | String _ s' => (if String.prefix pat s then 1 else 0) + count_sub pat s'
  end%nat.

(** The placeholders [{...}] of a template, by name, in the order they
    occur; [cur] holds the name being read inside braces. *)
Fixpoint scan (s : string) (cur : option string) : list string :=
  match s with
  | EmptyString => []
  | String c s' =>
      match cur with
      | None =>
          if Ascii.eqb c "{"%char then scan s' (Some EmptyString) else scan s' None
      | Some acc =>
          if Ascii.eqb c "}"%char then acc :: scan s' None
          else scan s' (Some (acc +:+ String c EmptyString))
      end
  end.

Definition placeholders (s : string) : list string := scan s None.

(** The dimension names declared anywhere in the making of an object: the
    strings of every [kdims=] and [vdims=] argument. *)
Fixpoint dims_of (v : value) : list string :=
  match v with
  | VStr _ | VInt _ | VModule _ => []
  | VMember o _ => dims_of o
  | VList vs | VTuple vs => flat_map dims_of vs
  | VDict d => flat_map (fun kv => dims_of (snd kv)) d
  | VObject f args kwargs =>
      flat_map (fun kv =>
                  if String.eqb (fst kv) "kdims" || String.eqb (fst kv) "vdims"
                  then strs_of (snd kv) else dims_of (snd kv)) kwargs
        ++ dims_of f ++ flat_map dims_of args
  end.

(** The files an object was loaded from: the path of every loader call in its
    making. *)
Fixpoint sources_of (v : value) : list string :=
  match v with
  | VStr _ | VInt _ | VModule _ => []
  | VMember o _ => sources_of o
  | VList vs | VTuple vs => flat_map sources_of vs
  | VDict d => flat_map (fun kv => sources_of (snd kv)) d
  | VObject f args kwargs =>
      (if is_loader f then omap str_of (take 1 args) else [])
        ++ sources_of f ++ flat_map sources_of args
        ++ flat_map (fun kv => sources_of (snd kv)) kwargs
  end.

(** ** Tables and the files behind them *)

(** A flat file of records under a header line. *)
Record csv_file : Type := { header : list string; records : list (list string) }.

(** A table: named columns and rows of as many fields. *)
Record table : Type := { columns : list string; rows : list (list string) }.

(** A whole-file load: the header names the columns, every record is a row. *)
Definition read_csv (f : csv_file) : table :=
  {| columns := header f; rows := records f |}.

(** Modelled from the spec: the file assets/cities.csv, which is not part of
    the sources: city population records (city, country, year, coordinates
    as longitude and latitude, population), at least one of them. *)
Definition cities_csv (first : list string) (more : list (list string)) : csv_file :=
  {| header := ["City"; "Country"; "Year"; "Longitude"; "Latitude"; "Population"];
     records := first :: more |}.

(** The field of row [r] under column [c]. *)
Fixpoint field (cols : list string) (r : list string) (c : string) : option string :=
  match cols, r with
  | c' :: cols', x :: r' => if String.eqb c c' then Some x else field cols' r' c
  | _, _ => None
  end.

(** The first row of [t] whose field under [c] is [key]. *)
Definition select (t : table) (c key : string) : option (list string) :=
  List.find (fun r => bool_decide (field (columns t) r c = Some key)) (rows t).

Section Choropleth.

(** The boundary geometry of a region, as the shapefile stores it. *)
Variable geometry : Type.

(** A record of a shapefile: a geometry and its attribute fields. *)
Record shape_record : Type := {
  rec_geometry : geometry;
  rec_attributes : list (string * string)
}.

(** A shape of the choropleth: the outline, its hover label and the value
    that shades it ([None] where the dataset has no value for it). *)
Record shape : Type := {
  outline : geometry;
  label : option string;
  shade : option string
}.

(** Modelled from the spec: geoviews' Shape.from_records, which is not part
    of the sources: the dataset, keyed by [on], is joined against the
    geometries of the records: each record gives one shape, valued by
    column [value] of the dataset row whose key is the record's [on]
    attribute, and labelled by the record's [index] attribute. *)
Definition from_records (recs : list shape_record) (t : table)
    (on value index : string) : list shape :=
  map (fun r =>
         {| outline := rec_geometry r;
            label := kwarg index (rec_attributes r);
            shade := key ← kwarg on (rec_attributes r);
                     row ← select t on key;
                     field (columns t) row value |}) recs.

(** The choropleth a [gv.Shape.from_records(records, dataset, on=, value=,
    index=, ...)] object stands for, given the records of its shapefile and
    the table of its dataset. *)
Definition choropleth (v : value) (recs : list shape_record) (t : table)
  : option (list shape) :=
  match v with
  | VObject f [_; _] kwargs =>
      if bool_decide (qualname f = Some "geoviews.Shape.from_records") then
        on ← kwarg "on" kwargs ≫= str_of;
        value ← kwarg "value" kwargs ≫= str_of;
        index ← kwarg "index" kwargs ≫= str_of;
        Some (from_records recs t on value index)
      else None
  | _ => None
  end.

End Choropleth.

Arguments rec_geometry {geometry} _.
Arguments rec_attributes {geometry} _.
Arguments outline {geometry} _.
Arguments label {geometry} _.
Arguments shade {geometry} _.
Arguments from_records {geometry} recs t on value index.
Arguments choropleth {geometry} v recs t.


(** ** Scoping *)

(** Every name a statement of [b] reads is in [bound] or bound by a statement
    of [b] before it. *)
Fixpoint body_scoped (bound : list string) (b : list stmt) : bool :=
  match b with
  | [] => true
  | s :: b' =>
      forallb (fun x => bool_decide (x ∈ bound)) (stmt_reads s)
        && body_scoped (bound ++ stmt_binds s) b'
  end.

(** The same for the cells of [cs], top to bottom, a cell seeing what the
    cells before it bound. *)
Fixpoint cells_scoped (bound : list string) (cs : list cell) : bool :=
  match cs with
  | [] => true
  | c :: cs' =>
      body_scoped bound (body c) && cells_scoped (bound ++ cell_binds c) cs'
  end.

(** ** The loops of the evaluator, by name *)

(** The loops [eval] runs inside a call, a list, a dictionary and a
    comprehension, each under a name of its own, to state what they do. *)
Definition eval_list (ρ : gmap string value) : list expr → comp (list value) :=
  fix go (es : list expr) : comp (list value) :=
    match es with
    | [] => mret []
    | a :: es' => v ← eval ρ a; vs ← go es'; mret (v :: vs)
    end.

Definition eval_kwargs (ρ : gmap string value)
  : list (string * expr) → comp (list (string * value)) :=
  fix go (es : list (string * expr)) : comp (list (string * value)) :=
    match es with
    | [] => mret []
    | (k, a) :: es' => v ← eval ρ a; vs ← go es'; mret ((k, v) :: vs)
    end.

Definition eval_items (ρ : gmap string value)
  : list (expr * expr) → list (string * value) → comp (list (string * value)) :=
  fix go (es : list (expr * expr)) (d : list (string * value))
    : comp (list (string * value)) :=
    match es with
    | [] => mret d
    | (k, a) :: es' =>
        vk ← eval ρ k; s ← as_key vk; v ← eval ρ a;
        go es' (dict_set s v d)
    end.

Definition comp_dict (ρ : gmap string value) (xs : list string) (k v : expr)
  : list value → list (string * value) → comp (list (string * value)) :=
  fix go (els : list value) (d : list (string * value))
    : comp (list (string * value)) :=
    match els with
    | [] => mret d
    | el :: els' =>
        ρ' ← bind_targets xs el ρ;
        vk ← eval ρ' k; s ← as_key vk; vv ← eval ρ' v;
        go els' (dict_set s vv d)
    end.

Definition comp_list (ρ : gmap string value) (xs : list string) (v : expr)
  : list value → comp (list value) :=
  fix go (els : list value) : comp (list value) :=
    match els with
    | [] => mret []
    | el :: els' =>
        ρ' ← bind_targets xs el ρ;
        vv ← eval ρ' v; vs ← go els'; mret (vv :: vs)
    end.

(** ** Comparing two runs *)

(** Two namespaces that bind the names of [X] alike. *)
Definition agree_on (X : list string) (ρ1 ρ2 : gmap string value) : Prop :=
  ∀ x, x ∈ X → ρ1 !! x = ρ2 !! x.

(** Two outcomes of the same code, started from [κ1] and from [κ2]: the same
    error, or two states that bind the names of [X] alike and that added the
    same file accesses and the same renderings to what they started with. *)
Definition alike (X : list string) (κ1 κ2 : kernel) (r1 r2 : result kernel)
  : Prop :=
  match r1, r2 with
  | Ok κ1', Ok κ2' =>
      agree_on X (names κ1') (names κ2')
      ∧ ∃ l s, files κ1' = files κ1 ++ l ∧ files κ2' = files κ2 ++ l
               ∧ shown κ1' = shown κ1 ++ s ∧ shown κ2' = shown κ2 ++ s
  | Raise e1, Raise e2 => e1 = e2
  | _, _ => False
  end.

(** What a run leaves for the cells to come: the namespace and the file log
    (nothing when it raised). *)
Definition bindings_and_reads (r : result kernel)
  : option (gmap string value * list access) :=
  match r with
  | Ok κ => Some (names κ, files κ)
  | Raise _ => None
  end.

(** The element the layout cell makes of a tile source: [gv.WMTS(wmts,
    extents=(0, -90, 360, 90), crs=ccrs.PlateCarree())]. *)
Definition wmts_element (wmts : value) : value :=
  VObject (VMember (VModule "geoviews") "WMTS") [wmts]
    [ ("extents", VTuple [VInt 0; VInt (-90); VInt 360; VInt 90]);
      ("crs", VObject (VMember (VMember (VModule "cartopy") "crs") "PlateCarree")
                [] []) ].

(** The layout the layout cell renders from the dictionary of its elements:
    [hv.NdLayout(elements, kdims=['Source']).cols(2)]. *)
Definition nd_layout (elements : list (string * value)) : value :=
  VObject
    (VMember
       (VObject (VMember (VModule "holoviews") "NdLayout") [VDict elements]
          [("kdims", VList [VStr "Source"])])
       "cols")
    [VInt 2] [].

(** * Properties *)

(** ** Helper lemmas *)

Lemma body_scoped_sound (b : list stmt) :
  ∀ bound, body_scoped bound b = true →
    ∀ k s x, b !! k = Some s → x ∈ stmt_reads s →
      x ∈ bound ∨ x ∈ flat_map stmt_binds (take k b).
Proof.
  induction b as [|s0 b IH]; intros bound Hb k s x Hk Hx; [done|].
  simpl in Hb. apply andb_prop in Hb as [Hs0 Hb].
  destruct k as [|k]; simpl in Hk.
  - injection Hk as <-. left.
    rewrite forallb_forall in Hs0.
    apply list_elem_of_In in Hx. apply Hs0 in Hx.
    by apply bool_decide_eq_true in Hx.
  - destruct (IH _ Hb k s x Hk Hx) as [Hin|Hin].
    + apply elem_of_app in Hin as [Hin|Hin]; [by left|].
      right. simpl. apply elem_of_app. by left.
    + right. simpl. apply elem_of_app. by right.
Qed.

Lemma cells_scoped_sound (cs : list cell) :
  ∀ bound, cells_scoped bound cs = true →
    ∀ i c k s x, cs !! i = Some c → body c !! k = Some s → x ∈ stmt_reads s →
      x ∈ bound ++ flat_map cell_binds (take i cs)
      ∨ x ∈ flat_map stmt_binds (take k (body c)).
Proof.
  induction cs as [|c0 cs IH]; intros bound Hcs i c k s x Hi Hk Hx; [done|].
  simpl in Hcs. apply andb_prop in Hcs as [Hc0 Hcs].
  destruct i as [|i]; simpl in Hi.
  - injection Hi as <-. simpl. rewrite app_nil_r.
    by apply (body_scoped_sound _ _ Hc0 k s x).
  - destruct (IH _ Hcs i c k s x Hi Hk Hx) as [Hin|Hin]; [|by right].
    left. simpl. by rewrite (assoc_L (++)).
Qed.

(** Running the cells never consults the cells past the end of the list. *)
Lemma take_notebook_all (n : nat) : take (21 + n) notebook = notebook.
Proof. apply take_ge. cbn; lia. Qed.

(** Every prefix of the notebook is one of its first 22 prefixes. *)
Lemma take_notebook_cases (n : nat) :
  ∃ m, (m ≤ 21)%nat ∧ take n notebook = take m notebook.
Proof.
  destruct (decide (n ≤ 21)%nat) as [Hn|Hn]; [by exists n|].
  exists 21%nat. split; [done|].
  replace n with (21 + (n - 21))%nat by lia. apply take_notebook_all.
Qed.

Ltac run_cells :=
  match goal with
  | |- context [run ?u ?cs ?κ] =>
      let r := fresh "r" in
      set (r := run u cs κ); vm_compute in r; subst r
  end.

(** A property of every prefix of the notebook is settled on those 22. *)
Lemma every_prefix (P : list cell → Prop) :
  Forall (fun m => P (take m notebook)) (seq 0 22) → ∀ n, P (take n notebook).
Proof.
  intros H n. destruct (take_notebook_cases n) as (m & Hm & ->).
  rewrite Forall_forall in H. apply H. apply elem_of_seq. lia.
Qed.

Ltac split_Forall :=
  repeat match goal with
         | |- Forall _ (_ :: _) => apply Forall_cons_2
         | |- Forall _ [] => apply Forall_nil_2
         end.

(** ** The input files *)




(** ** The tile sources *)

(** C3: once the notebook has run, [tiles] is a dictionary every entry of
    which, whatever its key, is a tile-source object wrapping a URL template
    string. *)
Theorem tiles_entries_are_tile_sources (u : string) :
  ∃ κ d, run u notebook fresh = Ok κ
    ∧ names κ !! "tiles" = Some (VDict d)
    ∧ d ≠ []
    ∧ ∀ k v, (k, v) ∈ d → ∃ url, v = tile_source url.
Proof.
  run_cells. eexists. exists (tiles_dict u).
  split; [reflexivity|]. split; [by vm_compute|]. split; [done|].
  intros k v Hin. unfold tiles_dict in Hin.
  repeat (apply elem_of_cons in Hin as [Heq|Hin];
          [injection Heq as -> ->; by eexists|]).
  by apply elem_of_nil in Hin.
Qed.

(** C9: the tiles cell builds a dictionary with exactly the keys 'OpenMap',
    'ESRI', 'Wikipedia' and 'Stamen Toner'; after that cell and after every
    later one, [tiles] is still bound to that same dictionary, and the lookup
    [tiles['Wikipedia']] of the points cell returns a tile source without
    raising. *)
Theorem tiles_keys_stable_lookup_succeeds (u : string) (n : nat) :
  ∃ κ, run u (take (5 + n) notebook) fresh = Ok κ
    ∧ names κ !! "tiles" = Some (VDict (tiles_dict u))
    ∧ dict_keys (tiles_dict u) = ["OpenMap"; "ESRI"; "Wikipedia"; "Stamen Toner"]
    ∧ NoDup (dict_keys (tiles_dict u))
    ∧ eval (names κ) (ESubscript (EName "tiles") (EStr "Wikipedia"))
      = Ok (tile_source "https://maps.wikimedia.org/osm-intl/{Z}/{X}/{Y}@2x.png", []).
Proof.
  destruct (take_notebook_cases (5 + n)) as (m & Hm & Hn).
  assert (5 ≤ m)%nat as H5.
  { destruct (decide (5 ≤ m)%nat) as [|Hlt]; [done|].
    apply (f_equal length) in Hn. rewrite !length_take in Hn.
    cbn [length notebook] in Hn. lia. }
  rewrite Hn. clear Hn n.
  do 5 (destruct m as [|m]; [lia|]). clear H5.
  do 17 (destruct m as [|m];
         [run_cells; eexists; split; [reflexivity|];
          repeat split; try (by vm_compute);
          apply (bool_decide_unpack _); by vm_compute|]).
  lia.
Qed.

(** C10: the notebook writes three URL templates, those of the 'OpenMap',
    'ESRI' and 'Wikipedia' entries; each holds [{Z}], [{X}] and [{Y}] exactly
    once, in the order Z, X, Y for 'OpenMap' and 'Wikipedia' and in the
    order Z, Y, X for 'ESRI'. *)
Theorem url_templates_placeholders (u : string) :
  ∃ κ d o e w,
    run u notebook fresh = Ok κ
    ∧ names κ !! "tiles" = Some (VDict d)
    ∧ flat_map url_literals notebook = [o; e; w]
    ∧ dict_get "OpenMap" d = Some (tile_source o)
    ∧ dict_get "ESRI" d = Some (tile_source e)
    ∧ dict_get "Wikipedia" d = Some (tile_source w)
    ∧ Forall (fun t => count_sub "{Z}" t = 1%nat ∧ count_sub "{X}" t = 1%nat
                       ∧ count_sub "{Y}" t = 1%nat) [o; e; w]
    ∧ placeholders o = ["Z"; "X"; "Y"]
    ∧ placeholders e = ["Z"; "Y"; "X"]
    ∧ placeholders w = ["Z"; "X"; "Y"].
Proof.
  run_cells. eexists. exists (tiles_dict u). do 3 eexists.
  split; [reflexivity|]. split; [by vm_compute|].
  split; [by vm_compute|].
  do 3 (split; [by vm_compute|]).
  split; [split_Forall; repeat split; by vm_compute|].
  repeat split; by vm_compute.
Qed.

(** ** Names and control flow *)

(** C4, as stated: every name a cell reads would be bound by a strictly
    earlier cell.  The cities cell reads [cities], which no cell before it
    binds: the cell binds it itself, in its first statement. *)
Lemma cities_read_in_its_own_cell :
  notebook !! (9%nat) = Some cell_cities
  ∧ "cities" ∈ cell_reads cell_cities
  ∧ ("cities" ∉ bound_before 9)
  ∧ "cities" ∈ cell_binds cell_cities.
Proof.
  split; [reflexivity|].
  repeat split; apply (bool_decide_unpack _); by vm_compute.
Qed.

(** C4, amended: every name a statement of a cell reads was bound by an
    earlier cell or by an earlier statement of the same cell, and running the
    cells in order raises nothing, so that no undefined name is referenced. *)
Theorem names_bound_before_read (u : string) (i k : nat) (c : cell) (s : stmt)
    (x : string) :
  notebook !! i = Some c → body c !! k = Some s → x ∈ stmt_reads s →
  (x ∈ bound_before i ∨ x ∈ flat_map stmt_binds (take k (body c)))
  ∧ is_ok (run u notebook fresh) = true.
Proof.
  intros Hi Hk Hx. split; [|by vm_compute].
  assert (cells_scoped [] notebook = true) as Hs by (by vm_compute).
  exact (cells_scoped_sound notebook [] Hs i c k s x Hi Hk Hx).
Qed.

(** The reading of [cities] by the closing [cities.head()] of the cities
    cell: bound two statements earlier in the same cell. *)
Lemma names_bound_before_read_witness :
  notebook !! (9%nat) = Some cell_cities
  ∧ body cell_cities !! (2%nat) = Some (SExpr (ECall (EAttr (EName "cities") "head") [] []))
  ∧ ("cities" ∈ bound_before 9
     ∨ "cities" ∈ flat_map stmt_binds (take 2 (body cell_cities)))
  ∧ is_ok (run "" notebook fresh) = true.
Proof.
  split; [reflexivity|]. split; [reflexivity|].
  apply (names_bound_before_read "" 9 2 cell_cities
           (SExpr (ECall (EAttr (EName "cities") "head") [] [])) "cities");
    [reflexivity|reflexivity|].
  apply (bool_decide_unpack _). by vm_compute.
Defined.

(** C5, as stated: no code cell would contain a loop.  The layout cell holds
    a dict comprehension, whose [for] clause runs its key and value once for
    every item of [tiles.items()]. *)
Lemma layout_cell_iterates :
  notebook !! (6%nat) = Some cell_layout
  ∧ no_control_flow cell_layout = false
  ∧ length (comprehensions cell_layout) = 1%nat.
Proof. repeat split; by vm_compute. Qed.

(** C5, amended: every statement of every cell is straight-line (an import,
    a binding or an expression: no [if], [while] or [for] statement), no cell
    holds a conditional expression, and the one iteration of the notebook is
    the dict comprehension of the layout cell over [tiles.items()]; every
    other cell is free of control flow altogether. *)
Theorem control_flow_is_one_comprehension :
  Forall (fun c => forallb straight_line (body c) = true ∧ conditionals c = [])
    notebook
  ∧ Forall (fun c => c = cell_layout ∨ no_control_flow c = true) notebook
  ∧ ∃ k v, flat_map comprehensions notebook
           = [EDictComp k v ["name"; "wmts"]
                (ECall (EAttr (EName "tiles") "items") [] [])].
Proof.
  split; [|split].
  - unfold notebook. split_Forall; by vm_compute.
  - unfold notebook. split_Forall;
      first [by left | right; by vm_compute].
  - do 2 eexists. by vm_compute.
Qed.

(** ** The datasets *)


(** What [from_records] gives record by record. *)
Lemma from_records_joins {G : Type} (recs : list (shape_record G)) (t : table)
    (on value index : string) :
  Forall2 (fun r s =>
             outline s = rec_geometry r
             ∧ label s = kwarg index (rec_attributes r)
             ∧ shade s = (key ← kwarg on (rec_attributes r);
                          row ← select t on key;
                          field (columns t) row value))
    recs (from_records recs t on value index).
Proof.
  induction recs as [|r recs IH]; [constructor|].
  cbn [from_records map]. constructor; [done|exact IH].
Qed.


(** * Further properties of the cells *)

(** ** The evaluator, loop by loop *)

Lemma eval_ECall ρ f args kwargs :
  eval ρ (ECall f args kwargs)
  = (vf ← eval ρ f; vs ← eval_list ρ args; ks ← eval_kwargs ρ kwargs;
     call vf vs ks).
Proof. reflexivity. Qed.

Lemma eval_EList ρ es : eval ρ (EList es) = (vs ← eval_list ρ es; mret (VList vs)).
Proof. reflexivity. Qed.

Lemma eval_ETuple ρ es : eval ρ (ETuple es) = (vs ← eval_list ρ es; mret (VTuple vs)).
Proof. reflexivity. Qed.

Lemma eval_EDict ρ items :
  eval ρ (EDict items) = (d ← eval_items ρ items []; mret (VDict d)).
Proof. reflexivity. Qed.

Lemma eval_EDictComp ρ k v xs iter :
  eval ρ (EDictComp k v xs iter)
  = (vi ← eval ρ iter; els ← elements_of vi; d ← comp_dict ρ xs k v els [];
     mret (VDict d)).
Proof. reflexivity. Qed.

Lemma eval_EListComp ρ v xs iter :
  eval ρ (EListComp v xs iter)
  = (vi ← eval ρ iter; els ← elements_of vi; vs ← comp_list ρ xs v els;
     mret (VList vs)).
Proof. reflexivity. Qed.

(** Induction on expressions, the expressions held in lists included. *)
Lemma expr_nested_ind (P : expr → Prop) :
  (∀ x, P (EName x)) → (∀ s, P (EStr s)) → (∀ n, P (EInt n)) →
  (∀ o a, P o → P (EAttr o a)) →
  (∀ f args kwargs, P f → Forall P args → Forall (fun ka => P (snd ka)) kwargs →
     P (ECall f args kwargs)) →
  (∀ o k, P o → P k → P (ESubscript o k)) →
  (∀ es, Forall P es → P (EList es)) →
  (∀ es, Forall P es → P (ETuple es)) →
  (∀ items, Forall (fun ka => P (fst ka) ∧ P (snd ka)) items → P (EDict items)) →
  (∀ k v xs iter, P k → P v → P iter → P (EDictComp k v xs iter)) →
  (∀ v xs iter, P v → P iter → P (EListComp v xs iter)) →
  (∀ l r, P l → P r → P (EMul l r)) →
  (∀ c th el, P c → P th → P el → P (EIfExp c th el)) →
  ∀ e, P e.
Proof.
  intros HN HS HI HA HC HSub HL HT HD HDC HLC HM HIf.
  fix IH 1. intros [x|s|n|o a|f args kwargs|o k|es|es|items|k v xs iter|v xs iter|l r|c th el].
  - apply HN.
  - apply HS.
  - apply HI.
  - apply HA, IH.
  - apply HC; [apply IH| |].
    + induction args as [|a args IHa]; constructor; [apply IH|exact IHa].
    + induction kwargs as [|[k a] kwargs IHk]; constructor; [apply IH|exact IHk].
  - apply HSub; apply IH.
  - apply HL. induction es as [|a es IHa]; constructor; [apply IH|exact IHa].
  - apply HT. induction es as [|a es IHa]; constructor; [apply IH|exact IHa].
  - apply HD. induction items as [|[k a] items IHi]; constructor;
      [split; apply IH|exact IHi].
  - apply HDC; apply IH.
  - apply HLC; apply IH.
  - apply HM; apply IH.
  - apply HIf; apply IH.
Qed.

(** ** An expression sees the namespace through the names it reads *)

Lemma agree_on_app X Y ρ1 ρ2 :
  agree_on (X ++ Y) ρ1 ρ2 ↔ agree_on X ρ1 ρ2 ∧ agree_on Y ρ1 ρ2.
Proof.
  unfold agree_on. split.
  - intros H. split; intros x Hx; apply H, elem_of_app; auto.
  - intros [HX HY] x Hx. apply elem_of_app in Hx as [Hx|Hx]; auto.
Qed.

Lemma agree_on_flat_map {A} (f : A → list string) (l : list A) ρ1 ρ2 :
  agree_on (flat_map f l) ρ1 ρ2 ↔ Forall (fun a => agree_on (f a) ρ1 ρ2) l.
Proof.
  induction l as [|a l IH]; simpl.
  - split; [constructor|]. intros _ x Hx. by apply elem_of_nil in Hx.
  - rewrite agree_on_app, Forall_cons, IH. done.
Qed.

Lemma bind_all_agree xs : ∀ vs ρ1 ρ2 X,
  (∀ y, y ∈ X → y ∉ xs → ρ1 !! y = ρ2 !! y) →
  match bind_all xs vs ρ1, bind_all xs vs ρ2 with
  | Some ρ1', Some ρ2' => agree_on X ρ1' ρ2'
  | None, None => True
  | _, _ => False
  end.
Proof.
  induction xs as [|x xs IH]; intros [|v vs] ρ1 ρ2 X H; simpl; try done.
  - intros y Hy. apply H; [done|]. apply not_elem_of_nil.
  - apply IH. intros y Hy Hn.
    destruct (decide (x = y)) as [->|Hne].
    + by rewrite !lookup_insert_eq.
    + rewrite !lookup_insert_ne by done. apply H; [done|].
      intros Hin. apply elem_of_cons in Hin as [->|Hin]; done.
Qed.

Lemma bind_targets_agree xs el ρ1 ρ2 X :
  (∀ y, y ∈ X → y ∉ xs → ρ1 !! y = ρ2 !! y) →
  match bind_targets xs el ρ1, bind_targets xs el ρ2 with
  | Ok (ρ1', l1), Ok (ρ2', l2) => l1 = [] ∧ l2 = [] ∧ agree_on X ρ1' ρ2'
  | Raise e1, Raise e2 => e1 = e2
  | _, _ => False
  end.
Proof.
  intros H. unfold bind_targets.
  assert (∀ vs,
    match
      match bind_all xs vs ρ1 with
      | Some ρ' => mret ρ' | None => raise TypeError end,
      match bind_all xs vs ρ2 with
      | Some ρ' => mret ρ' | None => raise TypeError end
    with
    | Ok (ρ1', l1), Ok (ρ2', l2) => l1 = [] ∧ l2 = [] ∧ agree_on X ρ1' ρ2'
    | Raise e1, Raise e2 => e1 = e2
    | _, _ => False
    end) as Hall.
  { intros vs. pose proof (bind_all_agree xs vs ρ1 ρ2 X H) as Hb.
    destruct (bind_all xs vs ρ1), (bind_all xs vs ρ2); simpl; try done. }
  destruct xs as [|x [|x' xs]].
  - destruct el; try done; apply Hall.
  - simpl. split; [done|]. split; [done|].
    intros y Hy. destruct (decide (x = y)) as [->|Hne].
    + by rewrite !lookup_insert_eq.
    + rewrite !lookup_insert_ne by done. apply H; [done|].
      intros Hin. apply elem_of_cons in Hin as [->|Hin]; [done|].
      by apply elem_of_nil in Hin.
  - destruct el; try done; apply Hall.
Qed.

(** Two namespaces that bind alike the names an expression reads give it the
    same value, the same file accesses and the same errors. *)
Lemma eval_agree (e : expr) :
  ∀ ρ1 ρ2, agree_on (reads e) ρ1 ρ2 → eval ρ1 e = eval ρ2 e.
Proof.
  induction e as [x|s|n|o a IHo|f args kwargs IHf IHargs IHkw|o k IHo IHk
                 |es IHes|es IHes|items IHitems|k v xs iter IHk IHv IHiter
                 |v xs iter IHv IHiter|l r IHl IHr|c th el _ _ _]
    using expr_nested_ind; intros ρ1 ρ2 Hag.
  - simpl. rewrite (Hag x); [done|]. simpl. apply list_elem_of_singleton. done.
  - done.
  - done.
  - simpl in *. by rewrite (IHo _ _ Hag).
  - rewrite !eval_ECall. cbn [reads] in Hag.
    apply agree_on_app in Hag as [Hf Hag]. apply agree_on_app in Hag as [Ha Hk].
    rewrite (IHf _ _ Hf).
    assert (eval_list ρ1 args = eval_list ρ2 args) as ->.
    { apply agree_on_flat_map in Ha. clear -IHargs Ha.
      induction args as [|a args IH]; [done|].
      apply Forall_cons in IHargs as [Hd IHargs]. apply Forall_cons in Ha as [Ha1 Ha].
      simpl. rewrite (Hd _ _ Ha1). by rewrite (IH IHargs Ha). }
    assert (eval_kwargs ρ1 kwargs = eval_kwargs ρ2 kwargs) as ->; [|done].
    apply agree_on_flat_map in Hk. clear -IHkw Hk.
    induction kwargs as [|[k a] kwargs IH]; [done|].
    apply Forall_cons in IHkw as [Hd IHkw]. apply Forall_cons in Hk as [Hk1 Hk].
    simpl in *. rewrite (Hd _ _ Hk1). by rewrite (IH IHkw Hk).
  - simpl in *. apply agree_on_app in Hag as [H1 H2].
    by rewrite (IHo _ _ H1), (IHk _ _ H2).
  - rewrite !eval_EList. cbn [reads] in Hag.
    assert (eval_list ρ1 es = eval_list ρ2 es) as ->; [|done].
    apply agree_on_flat_map in Hag. clear -IHes Hag.
    induction es as [|a es IH]; [done|].
    apply Forall_cons in IHes as [Hd IHes]. apply Forall_cons in Hag as [Ha1 Ha].
    simpl. rewrite (Hd _ _ Ha1). by rewrite (IH IHes Ha).
  - rewrite !eval_ETuple. cbn [reads] in Hag.
    assert (eval_list ρ1 es = eval_list ρ2 es) as ->; [|done].
    apply agree_on_flat_map in Hag. clear -IHes Hag.
    induction es as [|a es IH]; [done|].
    apply Forall_cons in IHes as [Hd IHes]. apply Forall_cons in Hag as [Ha1 Ha].
    simpl. rewrite (Hd _ _ Ha1). by rewrite (IH IHes Ha).
  - rewrite !eval_EDict. cbn [reads] in Hag.
    assert (∀ d, eval_items ρ1 items d = eval_items ρ2 items d) as ->; [|done].
    apply agree_on_flat_map in Hag. clear -IHitems Hag.
    induction items as [|[k a] items IH]; [done|]. intros d.
    apply Forall_cons in IHitems as [[Hdk Hda] IHitems].
    apply Forall_cons in Hag as [Ha1 Ha].
    simpl in *. apply agree_on_app in Ha1 as [Hk1 Hv1].
    rewrite (Hdk _ _ Hk1), (Hda _ _ Hv1).
    destruct (eval ρ2 k) as [[vk lk]|]; [|done]. simpl.
    destruct (as_key vk) as [[sk ls]|]; [|done]. simpl.
    destruct (eval ρ2 a) as [[va la]|]; [|done]. simpl.
    by rewrite (IH IHitems Ha).
  - rewrite !eval_EDictComp. cbn [reads] in Hag.
    apply agree_on_app in Hag as [Hit Hkv]. rewrite (IHiter _ _ Hit).
    assert (∀ els d, comp_dict ρ1 xs k v els d = comp_dict ρ2 xs k v els d) as Hgo.
    { induction els as [|el els IH]; [done|]. intros d. simpl.
      pose proof (bind_targets_agree xs el ρ1 ρ2 (reads k ++ reads v)) as Hb.
      destruct (bind_targets xs el ρ1) as [[ρ1' l1]|],
               (bind_targets xs el ρ2) as [[ρ2' l2]|]; simpl.
      - destruct Hb as (-> & -> & Hb).
        { intros y Hy Hn. apply Hkv. apply list_elem_of_filter. done. }
        apply agree_on_app in Hb as [Hbk Hbv].
        rewrite (IHk _ _ Hbk), (IHv _ _ Hbv).
        destruct (eval ρ2' k) as [[vk lk]|]; [|done]. simpl.
        destruct (as_key vk) as [[sk ls]|]; [|done]. simpl.
        destruct (eval ρ2' v) as [[vv lv]|]; [|done]. simpl.
        by rewrite IH.
      - exfalso. apply Hb. intros y Hy Hn. apply Hkv, list_elem_of_filter. done.
      - exfalso. apply Hb. intros y Hy Hn. apply Hkv, list_elem_of_filter. done.
      - f_equal. apply Hb. intros y Hy Hn. apply Hkv, list_elem_of_filter. done. }
    destruct (eval ρ2 iter) as [[vi li]|]; [|done]. simpl.
    destruct (elements_of vi) as [[els le]|]; [|done]. simpl.
    by rewrite Hgo.
  - rewrite !eval_EListComp. cbn [reads] in Hag.
    apply agree_on_app in Hag as [Hit Hkv]. rewrite (IHiter _ _ Hit).
    assert (∀ els, comp_list ρ1 xs v els = comp_list ρ2 xs v els) as Hgo.
    { induction els as [|el els IH]; [done|]. simpl.
      pose proof (bind_targets_agree xs el ρ1 ρ2 (reads v)) as Hb.
      destruct (bind_targets xs el ρ1) as [[ρ1' l1]|],
               (bind_targets xs el ρ2) as [[ρ2' l2]|]; simpl.
      - destruct Hb as (-> & -> & Hb).
        { intros y Hy Hn. apply Hkv. apply list_elem_of_filter. done. }
        rewrite (IHv _ _ Hb). by rewrite IH.
      - exfalso. apply Hb. intros y Hy Hn. apply Hkv, list_elem_of_filter. done.
      - exfalso. apply Hb. intros y Hy Hn. apply Hkv, list_elem_of_filter. done.
      - f_equal. apply Hb. intros y Hy Hn. apply Hkv, list_elem_of_filter. done. }
    destruct (eval ρ2 iter) as [[vi li]|]; [|done]. simpl.
    destruct (elements_of vi) as [[els le]|]; [|done]. simpl.
    by rewrite Hgo.
  - simpl in *. apply agree_on_app in Hag as [H1 H2].
    by rewrite (IHl _ _ H1), (IHr _ _ H2).
  - done.
Qed.

(** ** Cells see the kernel through the names they read *)

Lemma agree_on_insert X x v ρ1 ρ2 :
  agree_on X ρ1 ρ2 → agree_on (X ++ [x]) (<[x := v]> ρ1) (<[x := v]> ρ2).
Proof.
  intros H y Hy. destruct (decide (x = y)) as [->|Hne].
  - by rewrite !lookup_insert_eq.
  - rewrite !lookup_insert_ne by done. apply H.
    apply elem_of_app in Hy as [Hy|Hy]; [done|].
    apply list_elem_of_singleton in Hy. congruence.
Qed.

Lemma agree_on_weaken X Y ρ1 ρ2 :
  agree_on X ρ1 ρ2 → (∀ x, x ∈ Y → x ∈ X) → agree_on Y ρ1 ρ2.
Proof. intros H Hs x Hx. apply H, Hs, Hx. Qed.

(** One statement, from two states that agree on what it reads. *)
Lemma exec_alike (u : string) (s : stmt) (X : list string) (κ1 κ2 : kernel) :
  agree_on X (names κ1) (names κ2) →
  (∀ x, x ∈ stmt_reads s → x ∈ X) →
  match exec u s κ1, exec u s κ2 with
  | Ok (κ1', v1), Ok (κ2', v2) =>
      v1 = v2
      ∧ agree_on (X ++ stmt_binds s) (names κ1') (names κ2')
      ∧ ∃ l, files κ1' = files κ1 ++ l ∧ files κ2' = files κ2 ++ l
             ∧ shown κ1' = shown κ1 ∧ shown κ2' = shown κ2
  | Raise e1, Raise e2 => e1 = e2
  | _, _ => False
  end.
Proof.
  intros Hag Hrd.
  assert (∀ e, (∀ x, x ∈ reads e → x ∈ stmt_reads s) →
               eval (names κ1) e = eval (names κ2) e) as Hev.
  { intros e He. apply eval_agree. intros x Hx. apply Hag, Hrd, He, Hx. }
  destruct s as [m [a|]|m n a|[x|o k|o a] e|t e|t|e|c th el|c b|xs iter b];
    simpl; try done.
  - split; [done|]. split; [by apply agree_on_insert|].
    exists []. by rewrite !app_nil_r.
  - split; [done|]. split; [by apply agree_on_insert|].
    exists []. by rewrite !app_nil_r.
  - split; [done|]. split; [by apply agree_on_insert|].
    exists []. by rewrite !app_nil_r.
  - rewrite (Hev e).
    + destruct (eval (names κ2) e) as [[v l]|]; [|done].
      split; [done|]. split; [by apply agree_on_insert|]. by exists l.
    + intros y Hy. unfold stmt_reads. simpl. rewrite !app_nil_r. done.
  - rewrite (Hev e).
    + destruct (eval (names κ2) e) as [[v l]|]; [|done].
      split; [done|]. split; [by rewrite app_nil_r|]. by exists l.
    + intros y Hy. unfold stmt_reads. simpl. rewrite !app_nil_r. done.
Qed.

(** A statement leaves the names it does not bind as they were. *)
Lemma exec_frame (u : string) (s : stmt) (κ κ' : kernel) (v : option value) :
  exec u s κ = Ok (κ', v) →
  ∀ x, x ∉ stmt_binds s → names κ' !! x = names κ !! x.
Proof.
  intros He x Hx.
  destruct s as [m [a|]|m n a|[y|o k|o a] e|t e|t|e|c th el|c b|xs iter b];
    simpl in *; try done.
  - injection He as <- _. simpl. apply lookup_insert_ne. set_solver.
  - injection He as <- _. simpl. apply lookup_insert_ne. set_solver.
  - injection He as <- _. simpl. apply lookup_insert_ne. set_solver.
  - destruct (eval (names κ) e) as [[w l]|]; [|done].
    injection He as <- _. simpl. apply lookup_insert_ne. set_solver.
  - destruct (eval (names κ) e) as [[w l]|]; [|done].
    by injection He as <- _.
Qed.

Lemma all_bound (X : list string) (l : list string) :
  forallb (fun x => bool_decide (x ∈ X)) l = true → ∀ x, x ∈ l → x ∈ X.
Proof.
  rewrite forallb_forall. intros H x Hx.
  apply list_elem_of_In in Hx. apply H in Hx. by apply bool_decide_eq_true in Hx.
Qed.

(** The statements of a cell, from two states that agree on the names bound
    so far, every read being of such a name or of one bound on the way. *)
Lemma exec_body_alike (u : string) (b : list stmt) :
  ∀ X κ1 κ2 last,
    body_scoped X b = true →
    agree_on X (names κ1) (names κ2) →
    match exec_body u b κ1 last, exec_body u b κ2 last with
    | Ok (κ1', v1), Ok (κ2', v2) =>
        v1 = v2
        ∧ agree_on (X ++ flat_map stmt_binds b) (names κ1') (names κ2')
        ∧ ∃ l, files κ1' = files κ1 ++ l ∧ files κ2' = files κ2 ++ l
               ∧ shown κ1' = shown κ1 ∧ shown κ2' = shown κ2
    | Raise e1, Raise e2 => e1 = e2
    | _, _ => False
    end.
Proof.
  induction b as [|s b IH]; intros X κ1 κ2 last Hsc Hag.
  - simpl. split; [done|]. split; [by rewrite app_nil_r|].
    exists []. by rewrite !app_nil_r.
  - simpl in Hsc. apply andb_prop in Hsc as [Hs Hb].
    pose proof (exec_alike u s X κ1 κ2 Hag (all_bound _ _ Hs)) as H1.
    simpl. destruct (exec u s κ1) as [[κ1' v1]|], (exec u s κ2) as [[κ2' v2]|];
      try done.
    destruct H1 as (-> & Hag' & l & Hf1 & Hf2 & Hs1 & Hs2).
    pose proof (IH _ κ1' κ2' v2 Hb Hag') as H2.
    destruct (exec_body u b κ1' v2) as [[κ1'' w1]|],
             (exec_body u b κ2' v2) as [[κ2'' w2]|]; try done.
    destruct H2 as (-> & Hag'' & l' & Hg1 & Hg2 & Ht1 & Ht2).
    split; [done|]. split; [by rewrite (assoc_L (++))|].
    exists (l ++ l'). rewrite Hg1, Hg2, Hf1, Hf2, Ht1, Ht2, Hs1, Hs2.
    by rewrite !(assoc_L (++)).
Qed.

Lemma exec_body_frame (u : string) (b : list stmt) :
  ∀ κ κ' last v, exec_body u b κ last = Ok (κ', v) →
    ∀ x, x ∉ flat_map stmt_binds b → names κ' !! x = names κ !! x.
Proof.
  induction b as [|s b IH]; intros κ κ' last v He x Hx; simpl in *.
  - by injection He as <- _.
  - apply not_elem_of_app in Hx as [Hx1 Hx2].
    destruct (exec u s κ) as [[κ1 v1]|] eqn:E; [|done].
    rewrite (IH _ _ _ _ He x Hx2).
    exact (exec_frame _ _ _ _ _ E x Hx1).
Qed.

(** A cell, and then a list of cells, from two states that agree on the
    names bound so far. *)
Lemma run_cell_alike (u : string) (c : cell) (X : list string) (κ1 κ2 : kernel) :
  body_scoped X (body c) = true →
  agree_on X (names κ1) (names κ2) →
  alike (X ++ cell_binds c) κ1 κ2 (run_cell u c κ1) (run_cell u c κ2).
Proof.
  intros Hsc Hag. destruct c as [|ms b]; simpl.
  - split; [by rewrite app_nil_r|]. exists [], []. by rewrite !app_nil_r.
  - pose proof (exec_body_alike u b X κ1 κ2 None Hsc Hag) as H.
    destruct (exec_body u b κ1 None) as [[κ1' v1]|],
             (exec_body u b κ2 None) as [[κ2' v2]|]; try done.
    destruct H as (-> & Hag' & l & Hf1 & Hf2 & Hs1 & Hs2).
    destruct v2 as [v|]; simpl.
    + split; [done|]. exists l, [v]. by rewrite Hf1, Hf2, Hs1, Hs2.
    + split; [done|]. exists l, []. by rewrite Hf1, Hf2, Hs1, Hs2, !app_nil_r.
Qed.

Lemma run_alike (u : string) (cs : list cell) :
  ∀ X κ1 κ2,
    cells_scoped X cs = true →
    agree_on X (names κ1) (names κ2) →
    alike (X ++ flat_map cell_binds cs) κ1 κ2 (run u cs κ1) (run u cs κ2).
Proof.
  induction cs as [|c cs IH]; intros X κ1 κ2 Hsc Hag.
  - simpl. split; [by rewrite app_nil_r|]. exists [], []. by rewrite !app_nil_r.
  - simpl in Hsc. apply andb_prop in Hsc as [Hc Hcs].
    pose proof (run_cell_alike u c X κ1 κ2 Hc Hag) as H1.
    simpl. destruct (run_cell u c κ1) as [κ1'|], (run_cell u c κ2) as [κ2'|];
      try done.
    destruct H1 as (Hag' & l & s & Hf1 & Hf2 & Hs1 & Hs2).
    pose proof (IH _ κ1' κ2' Hcs Hag') as H2.
    destruct (run u cs κ1') as [κ1''|], (run u cs κ2') as [κ2''|]; try done.
    destruct H2 as (Hag'' & l' & s' & Hg1 & Hg2 & Ht1 & Ht2).
    split; [by rewrite (assoc_L (++))|].
    exists (l ++ l'), (s ++ s'). rewrite Hg1, Hg2, Hf1, Hf2, Ht1, Ht2, Hs1, Hs2.
    by rewrite !(assoc_L (++)).
Qed.

Lemma run_frame (u : string) (cs : list cell) :
  ∀ κ κ', run u cs κ = Ok κ' →
    ∀ x, x ∉ flat_map cell_binds cs → names κ' !! x = names κ !! x.
Proof.
  induction cs as [|c cs IH]; intros κ κ' He x Hx; simpl in *.
  - by injection He as <-.
  - apply not_elem_of_app in Hx as [Hx1 Hx2].
    destruct (run_cell u c κ) as [κ1|] eqn:E; [|done].
    rewrite (IH _ _ He x Hx2).
    destruct c as [|ms b]; simpl in E; [by injection E as <-|].
    destruct (exec_body u b κ None) as [[κ2 [v|]]|] eqn:E2; [| |done].
    + injection E as <-. simpl.
      exact (exec_body_frame _ _ _ _ _ _ E2 x Hx1).
    + injection E as <-.
      exact (exec_body_frame _ _ _ _ _ _ E2 x Hx1).
Qed.

(** ** The layout cell, for any dictionary of tile sources *)

Lemma eval_EAttr ρ o a : eval ρ (EAttr o a) = (v ← eval ρ o; mret (VMember v a)).
Proof. reflexivity. Qed.

Lemma eval_EName (ρ : gmap string value) x v :
  ρ !! x = Some v → eval ρ (EName x) = Ok (v, []).
Proof. intros H. simpl. by rewrite H. Qed.

Lemma dict_set_fresh (k : string) (v : value) (d : list (string * value)) :
  k ∉ dict_keys d → dict_set k v d = d ++ [(k, v)].
Proof.
  induction d as [|[k' v'] d IH]; intros Hk; [done|].
  simpl in *. apply not_elem_of_cons in Hk as [Hne Hk].
  destruct (String.eqb_spec k k') as [->|_]; [done|]. by rewrite IH.
Qed.

Lemma wmts_call_eval (ρ : gmap string value) (v : value) :
  ρ !! "gv" = Some (VModule "geoviews") →
  ρ !! "wmts" = Some v →
  ρ !! "ccrs" = Some (VMember (VModule "cartopy") "crs") →
  eval ρ (ECall (EAttr (EName "gv") "WMTS") [EName "wmts"]
            [ kw "extents" (ETuple [EInt 0; EInt (-90); EInt 360; EInt 90]);
              kw "crs" PlateCarree ])
  = Ok (wmts_element v, []).
Proof.
  intros Hgv Hw Hc. cbn [eval kw PlateCarree]. rewrite Hgv, Hw, Hc. reflexivity.
Qed.

Lemma layout_comp_eval (ρ : gmap string value) (d : list (string * value)) :
  ρ !! "gv" = Some (VModule "geoviews") →
  ρ !! "ccrs" = Some (VMember (VModule "cartopy") "crs") →
  ∀ acc, NoDup (dict_keys acc ++ dict_keys d) →
    comp_dict ρ ["name"; "wmts"] (EName "name")
      (ECall (EAttr (EName "gv") "WMTS") [EName "wmts"]
         [ kw "extents" (ETuple [EInt 0; EInt (-90); EInt 360; EInt 90]);
           kw "crs" PlateCarree ])
      (dict_items d) acc
    = Ok (acc ++ map (fun kv => (fst kv, wmts_element (snd kv))) d, []).
Proof.
  intros Hgv Hc. induction d as [|[k v] d IH]; intros acc Hnd.
  - simpl. by rewrite app_nil_r.
  - cbn [dict_items map comp_dict fst snd].
    change (bind_targets ["name"; "wmts"] (VTuple [VStr k; v]) ρ)
      with (Ok (<["wmts" := v]> (<["name" := VStr k]> ρ), @nil access) : comp _).
    cbn [mbind comp_bind].
    rewrite (wmts_call_eval _ v);
      [|by rewrite !lookup_insert_ne|by rewrite lookup_insert_eq
       |by rewrite !lookup_insert_ne].
    cbn [eval]. rewrite lookup_insert_ne by done. rewrite lookup_insert_eq.
    cbn [mret comp_ret as_key mbind comp_bind app].
    fold (dict_items d).
    fold (comp_dict ρ ["name"; "wmts"] (EName "name")
            (ECall (EAttr (EName "gv") "WMTS") [EName "wmts"]
               [ kw "extents" (ETuple [EInt 0; EInt (-90); EInt 360; EInt 90]);
                 kw "crs" PlateCarree ])).
    simpl in Hnd. apply NoDup_app in Hnd as (Hacc & Hdis & Hd).
    apply NoDup_cons in Hd as [Hk Hd].
    rewrite dict_set_fresh by (intros Hin; apply (Hdis k Hin); by left).
    rewrite IH.
    + by rewrite <- (assoc_L (++)).
    + unfold dict_keys. rewrite map_app. simpl.
      apply NoDup_app. split; [|split; [|done]].
      * apply NoDup_app. split; [done|]. split; [|apply NoDup_singleton].
        intros x Hx Hx'. apply list_elem_of_singleton in Hx' as ->.
        apply (Hdis k Hx). by left.
      * intros x Hx Hx'. apply elem_of_app in Hx as [Hx|Hx].
        -- apply (Hdis x Hx). by right.
        -- apply list_elem_of_singleton in Hx as ->. done.
Qed.





(** ** Running the notebook in a kernel that has run before *)

Lemma notebook_scoped : cells_scoped [] notebook = true.
Proof. by vm_compute. Qed.

Lemma notebook_runs_fresh (u : string) :
  ∃ κ, run u notebook fresh = Ok κ
    ∧ files κ = [ FRead "./assets/cities.csv";
                  FRead "./assets/boundaries/boundaries.shp";
                  FRead "./assets/referendum.csv";
                  FRead "./sample-data/pre-industrial.nc" ]
    ∧ length (shown κ) = 6%nat.
Proof. run_cells. eexists. split; [reflexivity|]. by split. Qed.

(** What running a list of cells from [κ0] has in common with running it in
    a fresh kernel, when every name it reads is bound in it beforehand. *)
Lemma run_from (u : string) (cs : list cell) (κ0 κ : kernel) :
  cells_scoped [] cs = true →
  run u cs fresh = Ok κ →
  ∃ κ', run u cs κ0 = Ok κ'
    ∧ files κ' = files κ0 ++ files κ
    ∧ shown κ' = shown κ0 ++ shown κ
    ∧ (∀ x, x ∈ flat_map cell_binds cs → names κ' !! x = names κ !! x)
    ∧ (∀ x, x ∉ flat_map cell_binds cs → names κ' !! x = names κ0 !! x).
Proof.
  intros Hsc Hκ.
  assert (agree_on [] (names κ0) (names fresh)) as Hag.
  { intros x Hx. exfalso. exact (proj1 (elem_of_nil x) Hx). }
  pose proof (run_alike u cs [] κ0 fresh Hsc Hag) as H.
  rewrite Hκ in H.
  destruct (run u cs κ0) as [κ'|] eqn:E; [|destruct H].
  destruct H as (Hn & l & s & Hf1 & Hf2 & Hs1 & Hs2).
  change (files fresh) with (@nil access) in Hf2.
  change (shown fresh) with (@nil value) in Hs2.
  rewrite app_nil_l in Hf2, Hs2. subst l s.
  exists κ'. split; [reflexivity|]. split; [exact Hf1|]. split; [exact Hs1|].
  split; [exact Hn|]. exact (run_frame u cs κ0 κ' E).
Qed.




(** ** Which cell needs which *)

(** X5: the imports, tiles, cities and shapes cells are each needed by a
    later cell: with any one of them left out the run stops at the first
    name that is missing, WMTSTileSource, tiles, population and shapes in
    turn. *)
Theorem binding_cells_are_needed (u : string) :
  notebook !! (0%nat) = Some cell_imports
  ∧ run u (delete 0%nat notebook) fresh = Raise (NameError "WMTSTileSource")
  ∧ notebook !! (4%nat) = Some cell_tiles
  ∧ run u (delete 4%nat notebook) fresh = Raise (NameError "tiles")
  ∧ notebook !! (9%nat) = Some cell_cities
  ∧ run u (delete 9%nat notebook) fresh = Raise (NameError "population")
  ∧ notebook !! (14%nat) = Some cell_shapes
  ∧ run u (delete 14%nat notebook) fresh = Raise (NameError "shapes").
Proof. repeat split; by vm_compute. Qed.

(** X6: the layout, points and choropleth cells only render: with any one of
    them left out, or all three, the run ends with the same namespace and
    the same file log as the whole notebook. *)
Theorem display_cells_can_be_skipped (u : string) :
  [notebook !! (6%nat); notebook !! (11%nat); notebook !! (16%nat)]
  = [Some cell_layout; Some cell_points; Some cell_choropleth]
  ∧ Forall (fun cs => is_ok (run u cs fresh) = true
                      ∧ bindings_and_reads (run u cs fresh)
                        = bindings_and_reads (run u notebook fresh))
      [ delete 6%nat notebook; delete 11%nat notebook; delete 16%nat notebook;
        delete 6%nat (delete 11%nat (delete 16%nat notebook)) ].
Proof.
  split; [reflexivity|].
  split_Forall; (split; vm_compute; reflexivity).
Qed.

(** X7: [np] is the one name the notebook binds and never reads: numpy is
    imported and not used, and every other import and variable is read by
    some cell. *)
Theorem numpy_is_never_read :
  filter (fun x => x ∉ flat_map cell_reads notebook) (flat_map cell_binds notebook)
  = ["np"].
Proof. by vm_compute. Qed.

(** No cell binds a name that an earlier cell has bound. *)
Lemma bound_once :
  forallb (fun i =>
             forallb (fun x =>
                        bool_decide (x ∉ flat_map cell_binds (drop (S i) notebook)))
               (cell_binds (default Markdown (notebook !! i))))
    (seq 0 21) = true.
Proof. by vm_compute. Qed.

(** X8: what a cell binds, no later cell binds again: whatever state the
    cells after the [i]-th are run from, when they run to the end every name
    bound by the [i]-th cell still has the value it had. *)
Theorem later_cells_keep_bindings (u : string) (i : nat) (c : cell) (x : string)
    (κ κ' : kernel) :
  notebook !! i = Some c →
  x ∈ cell_binds c →
  run u (drop (S i) notebook) κ = Ok κ' →
  names κ' !! x = names κ !! x.
Proof.
  intros Hi Hx Hrun. apply (run_frame u _ κ κ' Hrun).
  pose proof bound_once as H. rewrite forallb_forall in H.
  assert (i < 21)%nat as Hlt by exact (lookup_lt_Some notebook i c Hi).
  specialize (H i). rewrite Hi in H. cbn [default] in H.
  assert (In i (seq 0 21)) as Hin by (apply in_seq; lia).
  specialize (H Hin). rewrite forallb_forall in H.
  apply list_elem_of_In in Hx. specialize (H x Hx).
  exact (proj1 (bool_decide_eq_true _) H).
Qed.

(** The tiles cell and the sixteen cells after it. *)
Lemma later_cells_keep_bindings_witness :
  ∃ κ κ', run "" (take 5 notebook) fresh = Ok κ
    ∧ run "" (drop 5 notebook) κ = Ok κ'
    ∧ names κ' !! "tiles" = names κ !! "tiles".
Proof.
  assert (∃ κ, run "" (take 5 notebook) fresh = Ok κ) as [κ Hκ].
  { run_cells. eexists. reflexivity. }
  assert (∃ κ', run "" (drop 5 notebook) κ = Ok κ') as [κ' Hκ'].
  { assert (run "" notebook fresh
            = match run "" (take 5 notebook) fresh with
              | Ok κ1 => run "" (drop 5 notebook) κ1
              | Raise e => Raise e
              end) as Hsplit by (vm_compute; reflexivity).
    rewrite Hκ in Hsplit.
    destruct (notebook_runs_fresh "") as (κ2 & H2 & _).
    rewrite H2 in Hsplit. eexists. symmetry. exact Hsplit. }
  exists κ, κ'. split; [exact Hκ|]. split; [exact Hκ'|].
  apply (later_cells_keep_bindings "" 4 cell_tiles "tiles" κ κ');
    [reflexivity| |exact Hκ'].
  apply (bool_decide_unpack _). vm_compute. exact I.
Defined.

(** ** Stopping part of the way *)

Lemma run_app (u : string) (cs1 cs2 : list cell) :
  ∀ κ, run u (cs1 ++ cs2) κ
       = match run u cs1 κ with
         | Ok κ1 => run u cs2 κ1
         | Raise e => Raise e
         end.
Proof.
  induction cs1 as [|c cs1 IH]; intros κ; [reflexivity|].
  cbn [app run]. destruct (run_cell u c κ) as [κ1|]; [apply IH|reflexivity].
Qed.

Lemma cells_scoped_take (cs : list cell) :
  ∀ X n, cells_scoped X cs = true → cells_scoped X (take n cs) = true.
Proof.
  induction cs as [|c cs IH]; intros X [|n] H; try reflexivity.
  cbn [take cells_scoped] in *. apply andb_prop in H as [Hc Hcs].
  rewrite Hc. cbn [andb]. exact (IH _ n Hcs).
Qed.


(** ** Which rendering comes from which file *)

